(** * relie: the SE(3) exponential-map transforms

    A shallow embedding of [relie/se3_exp_transform.py].  The three classes
    [SE3ExpTransform], [SE3ExpCompactTransform] and
    [SE3ExpBijectiveTransform] wrap the numeric primitives of
    [relie.utils.se3_tools] as change-of-variables transforms.

    Tensors are Python objects: a variable holds a reference, and
    [masked_fill_] updates the referenced tensor in place.  The embedding
    therefore threads a store of tensors, together with the transform
    object itself, through every method. *)

From Stdlib Require Import ZArith List PrimFloat SpecFloat FloatOps FloatAxioms.
From stdpp Require Import base option list gmap.

Local Open Scope float_scope.

(** ** Tensors *)

(** A tensor of shape [(d1, ..., dn)] whose entries have type [A]: the
    shape and the entries in row-major order.  An algebra batch of shape
    [(..., 6)] is a [batch (list float)] of shape [(...)]: the last
    dimension is kept as the vector of each entry. *)
Record batch (A : Type) := Batch { shape : list nat; items : list A }.
Arguments Batch {A} _ _.
Arguments shape {A} _.
Arguments items {A} _.

Definition tensor := batch (list float).

(** Elementwise operations ([t[..., :3]], [.norm(dim=-1)], [<], [~]). *)
Definition bmap {A B} (f : A → B) (t : batch A) : batch B :=
  Batch (shape t) (f <$> items t).

(** [torch.full(shape, value)]. *)
Definition full {A} (sh : list nat) (a : A) : batch A :=
  Batch sh (replicate (foldr Nat.mul 1%nat sh) a).

(** [v.norm()] of one vector: the Euclidean norm. *)
Definition vnorm (v : list float) : float :=
  sqrt (fold_left (λ acc c, acc + c * c) v 0).

(** [t.masked_fill(m[..., None], value)]: the vectors whose mask entry is
    set are overwritten, in all their components, by [value]. *)
Definition masked_fill (t : tensor) (m : batch bool) (value : float) : tensor :=
  Batch (shape t)
        (zip_with (λ v (b : bool), if b then (λ _, value) <$> v else v)
                  (items t) (items m)).

(** ** The store and the method monad *)

Definition loc := nat.

(** The state a method of a class with objects of type [T] runs in: the
    receiver [self] and the tensors that are alive. *)
Record world (T : Type) := World { obj : T; mem : gmap loc tensor }.
Arguments World {T} _ _.
Arguments obj {T} _.
Arguments mem {T} _.

(** A method either raises ([None]) or returns a value and a new state. *)
Definition M (T A : Type) : Type := world T → option (A * world T).

Global Instance M_ret {T} : MRet (M T) := λ A a w, Some (a, w).
Global Instance M_bind {T} : MBind (M T) := λ A B f m w,
  match m w with
  | Some (a, w') => f a w'
  | None => None
  end.

Definition raise {T A} : M T A := λ _, None.
Definition getself {T} : M T T := λ w, Some (obj w, w).
Definition setself {T} (o : T) : M T unit := λ w, Some (tt, World o (mem w)).

(** Reading the tensor a reference points to. *)
Definition load {T} (l : loc) : M T tensor := λ w,
  match mem w !! l with
  | Some v => Some (v, w)
  | None => None
  end.

(** A new tensor object. *)
Definition alloc {T} (v : tensor) : M T loc := λ w,
  let l := fresh (dom (mem w)) in
  Some (l, World (obj w) (<[l:=v]> (mem w))).

(** In-place update of an existing tensor object. *)
Definition store {T} (l : loc) (v : tensor) : M T unit := λ w,
  match mem w !! l with
  | Some _ => Some (tt, World (obj w) (<[l:=v]> (mem w)))
  | None => None
  end.

(** A call [f(x)] of a numeric primitive: it reads its argument and
    returns a new tensor.  The results never share storage with the
    argument: the specification has the primitives compute pure values,
    and the candidates of [se3_xset], several distinct twists for one
    input twist, cannot be a view of it. *)
Definition call {T} (f : tensor → tensor) (x : loc) : M T loc :=
  v ← load x; alloc (f v).

(** ** The primitives of [relie.utils.se3_tools] and of torch

    [se3_tools] is not part of the sources at hand; the transforms are
    parametric in it.  [float32] is the dtype conversion [.float()]. *)
Class Primitives := {
  se3_exp : tensor → tensor;
  se3_log : tensor → tensor;
  se3_log_abs_det_jacobian : tensor → batch float;
  se3_xset : tensor → Z → tensor;
  float32 : float → float
}.

(** ** [torch.distributions.Transform]

    The base class of the three transforms, as torch implements it.
    [__init__(cache_size)] stores the cache size; with [cache_size = 1]
    the latest pair [(x, y)] is kept in [_cached_x_y] ([None] for torch's
    [(None, None)]).  A subclass that does not define [_inverse] inherits
    the one that raises [NotImplementedError]. *)
Module Transform.

Record t := Make { _cache_size : nat; _cached_x_y : option (loc * loc) }.

Definition __init__ (cache_size : nat) : t :=
  {| _cache_size := cache_size; _cached_x_y := None |}.

(** What a subclass provides: where its base-class fields live, and its
    [_call] and [_inverse] methods. *)
Class Sub (T : Type) := {
  base : T → t;
  with_base : t → T → T;
  _call : loc → M T loc;
  _inverse : loc → M T loc
}.

Section Wrappers.
Context {T : Type} `{Sub T}.

(** [self._cached_x_y = x, y]. *)
Definition set_cached_x_y (x y : loc) : M T unit :=
  self ← getself;
  setself (with_base (Make (_cache_size (base self)) (Some (x, y))) self).

(** [Transform.__call__]: the forward map, through the cache.  The test
    [x is x_old] compares object identities. *)
Definition __call__ (x : loc) : M T loc :=
  self ← getself;
  match _cache_size (base self) with
  | O => _call x
  | S _ =>
    match _cached_x_y (base self) with
    | Some (x_old, y_old) =>
      if decide (x = x_old) then mret y_old
      else y ← _call x; _ ← set_cached_x_y x y; mret y
    | None => y ← _call x; _ ← set_cached_x_y x y; mret y
    end
  end.

(** [Transform._inv_call]: the inverse map, through the cache. *)
Definition _inv_call (y : loc) : M T loc :=
  self ← getself;
  match _cache_size (base self) with
  | O => _inverse y
  | S _ =>
    match _cached_x_y (base self) with
    | Some (x_old, y_old) =>
      if decide (y = y_old) then mret x_old
      else x ← _inverse y; _ ← set_cached_x_y x y; mret x
    | None => x ← _inverse y; _ ← set_cached_x_y x y; mret x
    end
  end.
End Wrappers.

End Transform.

(** ** [class SE3ExpTransform(LocalDiffeoTransform)] *)
Module SE3ExpTransform.
Section Methods.
Context `{Primitives}.

Record t := Make { base : Transform.t; k_max : Z }.

(** Modelled from the spec: the base class [LocalDiffeoTransform] is
    missing from the sources.  The specification gives a multi-valued
    transform no state beyond its configuration, so [super().__init__()]
    is taken to reach [Transform.__init__] with its default
    [cache_size = 0]. *)
Definition __init__ (k_max : Z) : t :=
  {| base := Transform.__init__ 0; k_max := k_max |}.

Definition _call (x : loc) : M t loc := call se3_exp x.

Definition _xset (x : loc) : M t (loc * loc * batch bool) :=
  self ← getself;
  xset ← call (λ v, se3_xset v (k_max self)) x;
  xv ← load xset;
  let mask := full (shape xv) true in
  mret (x, xset, mask).

Definition _inverse_set (y : loc) : M t (loc * loc * batch bool) :=
  x ← call se3_log y;
  _xset x.

Definition log_abs_det_jacobian (x y : loc) : M t (batch float) :=
  v ← load x;
  mret (bmap float32 (se3_log_abs_det_jacobian v)).

Global Instance sub : Transform.Sub t := {|
  Transform.base := base;
  Transform.with_base := λ b self, Make b (k_max self);
  Transform._call := _call;
  Transform._inverse := λ _, raise
|}.
End Methods.
End SE3ExpTransform.

(** ** [class SE3ExpCompactTransform(LocalDiffeoTransform)] *)
Module SE3ExpCompactTransform.
Section Methods.
Context `{Primitives}.

Record t := Make { base : Transform.t; support_radius : float }.

(** As for [SE3ExpTransform], [super().__init__()] leaves the cache off. *)
Definition __init__ (support_radius : float) : t :=
  {| base := Transform.__init__ 0; support_radius := support_radius |}.

Definition _call (x : loc) : M t loc := call se3_exp x.

Definition _xset (x : loc) : M t (loc * loc * batch bool) :=
  self ← getself;
  xset ← call (λ v, se3_xset v 1) x;
  xv ← load xset;
  let norms := bmap vnorm (bmap (take 3) xv) in
  let mask := bmap (λ n, n <? support_radius self) norms in
  _ ← store xset (masked_fill xv (bmap negb mask) 0);
  mret (x, xset, mask).

Definition _inverse_set (y : loc) : M t (loc * loc * batch bool) :=
  x ← call se3_log y;
  _xset x.

Definition log_abs_det_jacobian (x y : loc) : M t (batch float) :=
  v ← load x;
  mret (bmap float32 (se3_log_abs_det_jacobian v)).

Global Instance sub : Transform.Sub t := {|
  Transform.base := base;
  Transform.with_base := λ b self, Make b (support_radius self);
  Transform._call := _call;
  Transform._inverse := λ _, raise
|}.
End Methods.
End SE3ExpCompactTransform.

(** ** [class SE3ExpBijectiveTransform(Transform)] *)
Module SE3ExpBijectiveTransform.
Section Methods.
Context `{Primitives}.

Record t := Make { base : Transform.t }.

(** [super().__init__(1)]: the cache is switched on. *)
Definition __init__ : t := {| base := Transform.__init__ 1 |}.

Definition _call (x : loc) : M t loc := call se3_exp x.

Definition _inverse (y : loc) : M t loc := call se3_log y.

Definition log_abs_det_jacobian (x y : loc) : M t (batch float) :=
  v ← load x;
  mret (bmap float32 (se3_log_abs_det_jacobian v)).

Global Instance sub : Transform.Sub t := {|
  Transform.base := base;
  Transform.with_base := λ b _, Make b;
  Transform._call := _call;
  Transform._inverse := _inverse
|}.
End Methods.
End SE3ExpBijectiveTransform.

(** ** What the specification says about the primitives *)
Section Contracts.
Context `{Primitives}.

Definition pi : float := 0x1.921fb54442d18p+1.

(** The norm of the rotational part (the first three components) of a
    twist. *)
Definition rotational_norm (v : list float) : float := vnorm (take 3 v).



(** Modelled from the spec: [se3_xset] is missing too.  The branch
    generator returns one candidate per winding index in
    [[-k_max, k_max]], the branch dimension first. *)
Definition se3_xset_window : Prop :=
  ∀ (x : tensor) (k : Z),
    (0 ≤ k)%Z → shape (se3_xset x k) = Z.to_nat (2 * k + 1) :: shape x.

End Contracts.

(** ** A test element

    The rotation by one radian about the first axis, without translation:
    its twist, its matrix, and the primitives tabulated at it. *)
Module Scenario.

Definition two_pi : float := 0x1.921fb54442d18p+2.

Fixpoint float_of_pos (p : positive) : float :=
  match p with
  | xH => 1
  | xO q => 2 * float_of_pos q
  | xI q => 2 * float_of_pos q + 1
  end.

Definition float_of_Z (k : Z) : float :=
  match k with
  | Z0 => 0
  | Zpos p => float_of_pos p
  | Zneg p => - float_of_pos p
  end.

(** The twist with the same axis and translation as [v] and the rotation
    angle moved by [k] turns. *)
Definition shift_winding (k : Z) (v : list float) : list float :=
  let theta := vnorm (take 3 v) in
  ((λ c, c / theta * (theta + two_pi * float_of_Z k)) <$> take 3 v) ++ drop 3 v.

(** Modelled from the spec: the branch generator [se3_xset] of the missing
    [relie.utils.se3_tools].  For every winding index [k] in
    [[-k_max, k_max]] it gives the twist whose rotation angle is shifted
    by [2 pi k] along the same axis, the translational components
    unchanged; the branch dimension comes first. *)
Definition xset (x : tensor) (k_max : Z) : tensor :=
  let ks := (λ i, (Z.of_nat i - k_max)%Z) <$> seq 0 (Z.to_nat (2 * k_max + 1)) in
  Batch (length ks :: shape x) (ks ≫= λ k, shift_winding k <$> items x).

Definition x0 : tensor := Batch [] [[1; 0; 0; 0; 0; 0]].

Definition cos1 : float := 0x1.14a280fb5068cp-1.
Definition sin1 : float := 0x1.aed548f090ceep-1.

Definition y0 : tensor :=
  Batch [4%nat] [[1; 0; 0; 0]; [0; cos1; - sin1; 0]; [0; sin1; cos1; 0]; [0; 0; 0; 1]].

(** A value standing for [log |det J|] of the exponential map at [x0];
    no statement below depends on which number it is. *)
Definition jac0 : batch float := Batch [] [-0x1.58394a6a0ca09p-4].

Definition tools : Primitives := {|
  se3_exp := λ _, y0;
  se3_log := λ _, x0;
  se3_log_abs_det_jacobian := λ _, jac0;
  se3_xset := xset;
  float32 := λ c, c
|}.

(** A store holding the twist at reference [0] and the group element at
    reference [1]. *)
Definition mem0 : gmap loc tensor := <[1%nat := y0]> (<[0%nat := x0]> ∅).

End Scenario.

(** ** Primitives that meet the contract

    A group element is represented by its principal twist: the logarithm
    reads the representation off, the exponential of a twist inside the
    injectivity ball is that twist, and every twist outside the ball is
    sent to the identity.  These stand-ins are exact, and not one-to-one
    outside the ball. *)
Module PrincipalTwist.

Definition in_ball (x : tensor) : bool :=
  forallb (λ v, rotational_norm v <? pi) (items x).

Definition identity_like (x : tensor) : tensor :=
  bmap (fmap (λ _, 0%float)) x.

Definition exp (x : tensor) : tensor :=
  if in_ball x then x else identity_like x.

Definition log (y : tensor) : tensor := y.

Definition tools : Primitives := {|
  se3_exp := exp;
  se3_log := log;
  se3_log_abs_det_jacobian := λ _, Scenario.jac0;
  se3_xset := Scenario.xset;
  float32 := λ c, c
|}.

End PrincipalTwist.

(** ** Statements about the returned values *)

(** What is left of a run for a caller that holds no reference to the
    transform: the returned value and the store. *)
Definition outcome {T A} (r : option (A * world T)) : option (A * gmap loc tensor) :=
  (λ p, (p.1, mem p.2)) <$> r.

(** A method that leaves its receiver as it found it. *)
Definition stateless {T A} (method : M T A) : Prop :=
  ∀ w a w', method w = Some (a, w') → obj w' = obj w.

(** The mask of the bounded variant read against the candidates that
    [_inverse_set] returns: entry [i] of the mask is the test
    [norm(candidate_xs[i][:3]) < support_radius] on the returned array. *)
Definition mask_matches_returned `{Primitives}
    (self : SE3ExpCompactTransform.t) (y : loc) (m : gmap loc tensor) : Prop :=
  ∀ rep cands mask w (vc : tensor),
    SE3ExpCompactTransform._inverse_set y (World self m) = Some (rep, cands, mask, w) →
    mem w !! cands = Some vc →
    ∀ (i : nat) (b : bool) (v : list float),
      items mask !! i = Some b → items vc !! i = Some v →
      b = (rotational_norm v <? SE3ExpCompactTransform.support_radius self).


(** [inverse_set y] returns, and [post] holds of the representative, the
    candidates, the mask and the final store. *)
Definition inverse_set_returns {T}
    (inverse_set : loc → M T (loc * loc * batch bool))
    (self : T) (m : gmap loc tensor) (y : loc)
    (post : loc → tensor → batch bool → gmap loc tensor → Prop) : Prop :=
  ∃ rep cands mask w vc,
    inverse_set y (World self m) = Some (rep, cands, mask, w)
    ∧ obj w = self
    ∧ mem w !! cands = Some vc
    ∧ post rep vc mask (mem w).

(** The mask [mask] is the test [norm < radius] on the rotational parts
    of the generated candidates [xs], and a returned candidate of [vc]
    whose mask entry is true passes that test. *)
Definition mask_of_generated (radius : float) (xs vc : tensor) (mask : batch bool) : Prop :=
  (∀ i : nat,
     items mask !! i = (λ v, rotational_norm v <? radius) <$> items xs !! i)
  ∧ (∀ (i : nat) (v : list float),
       items mask !! i = Some true → items vc !! i = Some v →
       (rotational_norm v <? radius) = true).

(** The candidates of [vc] whose mask entry is false are zero in every
    component. *)
Definition zero_filled (vc : tensor) (mask : batch bool) : Prop :=
  ∀ (i : nat) (v : list float),
    items mask !! i = Some false → items vc !! i = Some v →
    Forall (λ c, c = 0%float) v.

(** The mask marks everything valid and has the shape of the candidates:
    [branches] branches of a batch of shape [sh]. *)
Definition all_valid (branches : nat) (sh : list nat) (vc : tensor) (mask : batch bool) : Prop :=
  Forall (λ b, b = true) (items mask)
  ∧ shape mask = shape vc
  ∧ shape mask = branches :: sh
  ∧ length (items mask) = (branches * foldr Nat.mul 1 sh)%nat.

(** Candidates and mask have a branch dimension of size 3 over a batch of
    shape [sh], with as many entries as the generated candidates [xs]. *)
Definition window_of_three (sh : list nat) (xs vc : tensor) (mask : batch bool) : Prop :=
  shape vc = 3%nat :: sh
  ∧ shape mask = 3%nat :: sh
  ∧ length (items vc) = length (items xs)
  ∧ length (items mask) = length (items xs).

(** The methods of a multi-valued transform assign no attribute of the
    receiver, and on a receiver whose cache is off ([_cache_size = 0])
    the forward call [Transform.__call__] leaves it as it is. *)
Definition keeps_no_state {T} `{Transform.Sub T}
    (call : loc → M T loc)
    (xset inverse_set : loc → M T (loc * loc * batch bool))
    (jacobian : loc → loc → M T (batch float)) : Prop :=
  (∀ x, stateless (call x))
  ∧ (∀ x, stateless (xset x))
  ∧ (∀ y, stateless (inverse_set y))
  ∧ (∀ x y, stateless (jacobian x y))
  ∧ (∀ x (w w' : world T) (a : loc),
       Transform._cache_size (Transform.base (obj w)) = 0%nat →
       Transform.__call__ x w = Some (a, w') → obj w' = obj w).

(** With the cache switched on, a forward call on the cached [x] returns
    the cached [y], and an inverse call on the cached [y] returns the
    cached [x]: nothing is computed, store and receiver stay as they
    are. *)
Definition cached_partner_returned `{Primitives} : Prop :=
  (∀ (x y : loc) (n : nat) (m : gmap loc tensor),
     let w := World (SE3ExpBijectiveTransform.Make
                       (Transform.Make (S n) (Some (x, y)))) m in
     Transform.__call__ x w = Some (y, w))
  ∧ (∀ (x y : loc) (n : nat) (m : gmap loc tensor),
       let w := World (SE3ExpBijectiveTransform.Make
                         (Transform.Make (S n) (Some (x, y)))) m in
       Transform._inv_call y w = Some (x, w)).

(** With the cache switched on, forward and inverse leave the pair they
    handled in the receiver, and keep the cache size. *)
Definition latest_pair_cached `{Primitives} : Prop :=
  (∀ x y (w w' : world SE3ExpBijectiveTransform.t),
     Transform._cache_size (SE3ExpBijectiveTransform.base (obj w)) = 1%nat →
     Transform.__call__ x w = Some (y, w') →
     SE3ExpBijectiveTransform.base (obj w') = Transform.Make 1 (Some (x, y)))
  ∧ (∀ y x (w w' : world SE3ExpBijectiveTransform.t),
       Transform._cache_size (SE3ExpBijectiveTransform.base (obj w)) = 1%nat →
       Transform._inv_call y w = Some (x, w') →
       SE3ExpBijectiveTransform.base (obj w') = Transform.Make 1 (Some (x, y))).

(** The candidates of [vc] whose mask entry is true are the generated
    ones of [xs], in all their components. *)
Definition valid_unchanged (xs vc : tensor) (mask : batch bool) : Prop :=
  ∀ i : nat, items mask !! i = Some true → items vc !! i = items xs !! i.

(** Every candidate of [vc] has its rotational part inside the ball of
    the given radius. *)
Definition within_support (radius : float) (vc : tensor) : Prop :=
  Forall (λ v, (rotational_norm v <? radius) = true) (items vc).

(** The store [m'] is [m] with the two new tensors [rep] and [cands]:
    nothing else is added, and every tensor of [m] is as it was. *)
Definition two_new_tensors (m : gmap loc tensor) (rep cands : loc)
    (m' : gmap loc tensor) : Prop :=
  rep ≠ cands
  ∧ m !! rep = None
  ∧ m !! cands = None
  ∧ dom m' = {[rep; cands]} ∪ dom m
  ∧ ∀ (l : loc) (v : tensor), m !! l = Some v → m' !! l = Some v.

(** In the store [m'] the references [rep] and [cands] are new, distinct
    tensor objects, and every tensor of [m] is as it was. *)
Definition caller_tensors_kept (m : gmap loc tensor) (rep cands : loc)
    (m' : gmap loc tensor) : Prop :=
  rep ≠ cands
  ∧ m !! rep = None
  ∧ m !! cands = None
  ∧ ∀ (l : loc) (v : tensor), m !! l = Some v → m' !! l = Some v.

(** A store with two twist objects of equal value, at references [0] and
    [1]. *)
Definition two_twists : gmap loc tensor :=
  <[1%nat := Scenario.x0]> (<[0%nat := Scenario.x0]> ∅).

(** * Properties *)

(** ** Running the store operations *)
Section Runs.
Context {T : Type}.
Implicit Types (o : T) (m : gmap loc tensor) (l x : loc) (v : tensor).

Lemma fresh_lookup m : m !! fresh (dom m) = None.
Proof. apply not_elem_of_dom, is_fresh. Qed.

Lemma fresh_ne m l v : m !! l = Some v → l ≠ fresh (dom m).
Proof.
  intros Hl ->. rewrite fresh_lookup in Hl. discriminate.
Qed.

Lemma bind_run {A B} (c : M T A) (f : A → M T B) (w : world T) :
  (c ≫= f) w = match c w with Some (a, w') => f a w' | None => None end.
Proof. reflexivity. Qed.

Lemma load_run o m l v :
  m !! l = Some v → load l (World o m) = Some (v, World o m).
Proof. intros Hl. unfold load. simpl. rewrite Hl. reflexivity. Qed.

Lemma load_fail o m l : m !! l = None → load (T := T) l (World o m) = None.
Proof. intros Hl. unfold load. simpl. rewrite Hl. reflexivity. Qed.

Lemma store_run o m l v v' :
  m !! l = Some v → store l v' (World o m) = Some (tt, World o (<[l:=v']> m)).
Proof. intros Hl. unfold store. simpl. rewrite Hl. reflexivity. Qed.

Lemma call_run (f : tensor → tensor) o m x v :
  m !! x = Some v →
  call f x (World o m) = Some (fresh (dom m), World o (<[fresh (dom m) := f v]> m)).
Proof.
  intros Hx. unfold call. rewrite bind_run, (load_run _ _ _ _ Hx). reflexivity.
Qed.

Lemma call_fail (f : tensor → tensor) o m x :
  m !! x = None → call (T := T) f x (World o m) = None.
Proof.
  intros Hx. unfold call. rewrite bind_run, (load_fail _ _ _ Hx). reflexivity.
Qed.

(** A primitive call leaves the receiver alone. *)
Lemma call_stateless (f : tensor → tensor) x : stateless (call (T := T) f x).
Proof.
  intros [o m] a w'. destruct (m !! x) as [v|] eqn:Hx.
  - rewrite (call_run _ _ _ _ _ Hx). intros [= <- <-]. reflexivity.
  - rewrite (call_fail _ _ _ _ Hx). discriminate.
Qed.

End Runs.

(** ** Run equations of the three classes *)
Section Equations.
Context `{Primitives}.
Implicit Types (m : gmap loc tensor) (x y : loc) (vx vy : tensor).

Lemma full_xset_run (self : SE3ExpTransform.t) m x vx :
  m !! x = Some vx →
  let l := fresh (dom m) in
  let xs := se3_xset vx (SE3ExpTransform.k_max self) in
  SE3ExpTransform._xset x (World self m)
  = Some (x, l, full (shape xs) true, World self (<[l:=xs]> m)).
Proof.
  intros Hx l xs. unfold SE3ExpTransform._xset.
  rewrite bind_run. simpl.
  rewrite bind_run, (call_run _ _ _ _ _ Hx).
  rewrite bind_run, (load_run _ _ l xs) by apply lookup_insert_eq.
  reflexivity.
Qed.

Lemma full_inverse_set_run (self : SE3ExpTransform.t) m y vy :
  m !! y = Some vy →
  let lx := fresh (dom m) in
  let m1 := <[lx := se3_log vy]> m in
  let l := fresh (dom m1) in
  let xs := se3_xset (se3_log vy) (SE3ExpTransform.k_max self) in
  SE3ExpTransform._inverse_set y (World self m)
  = Some (lx, l, full (shape xs) true, World self (<[l:=xs]> m1)).
Proof.
  intros Hy lx m1 l xs. unfold SE3ExpTransform._inverse_set.
  rewrite bind_run, (call_run _ _ _ _ _ Hy).
  apply (full_xset_run self m1 lx (se3_log vy)), lookup_insert_eq.
Qed.

(** The mask and the zero-filled candidates of the bounded variant, as
    [_xset] computes them from the generated candidates [xs]. *)
Lemma compact_xset_run (self : SE3ExpCompactTransform.t) m x vx :
  m !! x = Some vx →
  let l := fresh (dom m) in
  let xs := se3_xset vx 1 in
  let mask := bmap (λ n, n <? SE3ExpCompactTransform.support_radius self)
                   (bmap vnorm (bmap (take 3) xs)) in
  SE3ExpCompactTransform._xset x (World self m)
  = Some (x, l, mask,
          World self (<[l := masked_fill xs (bmap negb mask) 0]> (<[l:=xs]> m))).
Proof.
  intros Hx l xs mask. unfold SE3ExpCompactTransform._xset.
  rewrite bind_run. simpl.
  rewrite bind_run, (call_run _ _ _ _ _ Hx).
  rewrite bind_run, (load_run _ _ l xs) by apply lookup_insert_eq.
  rewrite bind_run, (store_run _ _ l xs) by apply lookup_insert_eq.
  reflexivity.
Qed.

Lemma compact_inverse_set_run (self : SE3ExpCompactTransform.t) m y vy :
  m !! y = Some vy →
  let lx := fresh (dom m) in
  let m1 := <[lx := se3_log vy]> m in
  let l := fresh (dom m1) in
  let xs := se3_xset (se3_log vy) 1 in
  let mask := bmap (λ n, n <? SE3ExpCompactTransform.support_radius self)
                   (bmap vnorm (bmap (take 3) xs)) in
  SE3ExpCompactTransform._inverse_set y (World self m)
  = Some (lx, l, mask,
          World self (<[l := masked_fill xs (bmap negb mask) 0]> (<[l:=xs]> m1))).
Proof.
  intros Hy lx m1 l xs mask. unfold SE3ExpCompactTransform._inverse_set.
  rewrite bind_run, (call_run _ _ _ _ _ Hy).
  apply (compact_xset_run self m1 lx (se3_log vy)), lookup_insert_eq.
Qed.

(** The representative survives the in-place zero-fill: the candidates
    live in a tensor of their own. *)
Lemma representative_kept m (v xs xs' : tensor) :
  let lx := fresh (dom m) in
  let m1 := <[lx := v]> m in
  let l := fresh (dom m1) in
  (<[l := xs']> (<[l := xs]> m1)) !! lx = Some v.
Proof.
  intros lx m1 l.
  assert (Hlx : m1 !! lx = Some v) by apply lookup_insert_eq.
  pose proof (fresh_ne m1 lx v Hlx) as Hne.
  rewrite !lookup_insert_ne by (intros E; apply Hne; symmetry; exact E).
  exact Hlx.
Qed.

(** Entry [i] of a zero-filled array. *)
Lemma masked_fill_lookup (xs : tensor) (mask : batch bool) (i : nat) (v : list float) :
  items (masked_fill xs (bmap negb mask) 0) !! i = Some v →
  ∃ (u : list float) (b : bool), items xs !! i = Some u ∧ items mask !! i = Some b
         ∧ v = if b then u else (λ _, 0%float) <$> u.
Proof.
  unfold masked_fill, bmap. simpl. intros Hv.
  apply lookup_zip_with_Some in Hv as (u & nb & -> & Hu & Hnb).
  rewrite list_lookup_fmap in Hnb.
  destruct (items mask !! i) as [b|] eqn:Hb; [|discriminate].
  injection Hnb as <-. exists u, b. destruct b; auto.
Qed.

Lemma jacobian_run {T} (o : T) m x vx :
  m !! x = Some vx →
  (v ← load x; mret (bmap float32 (se3_log_abs_det_jacobian v))) (World o m)
  = Some (bmap float32 (se3_log_abs_det_jacobian vx), World o m).
Proof. intros Hx. rewrite bind_run, (load_run _ _ _ _ Hx). reflexivity. Qed.

Lemma jacobian_fail {T} (o : T) m x :
  m !! x = None →
  (v ← load x; mret (bmap float32 (se3_log_abs_det_jacobian v))) (World o m)
  = @None (batch float * world T).
Proof. intros Hx. rewrite bind_run, (load_fail _ _ _ Hx). reflexivity. Qed.

End Equations.

(** ** The multi-valued transforms *)
Section InverseSets.
Context `{Primitives}.
Implicit Types (m : gmap loc tensor) (x y : loc) (vx vy : tensor).


(** C2, as amended.  For [SE3ExpCompactTransform], entry [i] of the mask
    is the test [norm < support_radius] on the rotational part of the
    [i]-th candidate as [se3_xset(se3_log(y), 1)] generated it, before the
    zero-fill; of the returned candidates it holds that a candidate whose
    mask entry is true has rotational norm below [support_radius]. *)
Theorem C2_mask_of_generated (self : SE3ExpCompactTransform.t) m y vy :
  m !! y = Some vy →
  inverse_set_returns SE3ExpCompactTransform._inverse_set self m y
    (λ _ vc mask _,
       mask_of_generated (SE3ExpCompactTransform.support_radius self)
                         (se3_xset (se3_log vy) 1) vc mask).
Proof.
  intros Hy. pose proof (compact_inverse_set_run self m y vy Hy) as Hrun.
  cbv zeta in Hrun. do 5 eexists.
  split; [exact Hrun|]. split; [reflexivity|].
  split; [apply lookup_insert_eq|].
  assert (Hgen : ∀ i : nat,
    items (bmap (λ n, n <? SE3ExpCompactTransform.support_radius self)
                (bmap vnorm (bmap (take 3) (se3_xset (se3_log vy) 1)))) !! i
    = (λ v, rotational_norm v <? SE3ExpCompactTransform.support_radius self)
        <$> items (se3_xset (se3_log vy) 1) !! i).
  { intros i. unfold bmap. simpl. rewrite !list_lookup_fmap.
    destruct (items (se3_xset (se3_log vy) 1) !! i); reflexivity. }
  split; [exact Hgen|].
  intros i v Hm Hv.
  apply masked_fill_lookup in Hv as (u & b & Hu & Hb & ->).
  rewrite Hm in Hb. injection Hb as <-.
  rewrite Hgen, Hu in Hm. injection Hm as Hm. exact Hm.
Qed.

(** C3.  For [SE3ExpCompactTransform], every returned candidate whose
    mask entry is false has all its components exactly zero. *)
Theorem C3_zero_fill (self : SE3ExpCompactTransform.t) m y vy :
  m !! y = Some vy →
  inverse_set_returns SE3ExpCompactTransform._inverse_set self m y
    (λ _ vc mask _, zero_filled vc mask).
Proof.
  intros Hy. pose proof (compact_inverse_set_run self m y vy Hy) as Hrun.
  cbv zeta in Hrun. do 5 eexists.
  split; [exact Hrun|]. split; [reflexivity|].
  split; [apply lookup_insert_eq|].
  intros i v Hm Hv.
  apply masked_fill_lookup in Hv as (u & b & Hu & Hb & ->).
  rewrite Hm in Hb. injection Hb as <-.
  apply Forall_fmap, Forall_true. reflexivity.
Qed.

(** C4.  For [SE3ExpTransform], every entry of the mask is true, and the
    mask has one entry for each of the [2 * k_max + 1] enumerated branches
    of each batch element. *)
Theorem C4_mask_all_true (self : SE3ExpTransform.t) m y vy :
  m !! y = Some vy →
  se3_xset_window →
  (0 ≤ SE3ExpTransform.k_max self)%Z →
  inverse_set_returns SE3ExpTransform._inverse_set self m y
    (λ _ vc mask _,
       all_valid (Z.to_nat (2 * SE3ExpTransform.k_max self + 1))
                 (shape (se3_log vy)) vc mask).
Proof.
  intros Hy Hwin Hk. pose proof (full_inverse_set_run self m y vy Hy) as Hrun.
  cbv zeta in Hrun. do 5 eexists.
  split; [exact Hrun|]. split; [reflexivity|].
  split; [apply lookup_insert_eq|].
  unfold all_valid, full. simpl. rewrite (Hwin _ _ Hk). simpl.
  repeat split.
  - apply Forall_replicate. reflexivity.
  - apply length_replicate.
Qed.

(** C5.  For [SE3ExpCompactTransform], whatever the support radius, the
    candidates are those of the window [k ∈ {-1, 0, 1}]: the branch
    dimension of the candidates and of the mask has size 3. *)
Theorem C5_window_of_three (self : SE3ExpCompactTransform.t) m y vy :
  m !! y = Some vy →
  se3_xset_window →
  inverse_set_returns SE3ExpCompactTransform._inverse_set self m y
    (λ _ vc mask _,
       window_of_three (shape (se3_log vy)) (se3_xset (se3_log vy) 1) vc mask).
Proof.
  intros Hy Hwin. pose proof (compact_inverse_set_run self m y vy Hy) as Hrun.
  cbv zeta in Hrun. do 5 eexists.
  split; [exact Hrun|]. split; [reflexivity|].
  split; [apply lookup_insert_eq|].
  unfold window_of_three, masked_fill, bmap. simpl.
  rewrite (Hwin (se3_log vy) 1%Z) by lia.
  repeat split.
  - rewrite length_zip_with, !length_fmap. lia.
  - rewrite !length_fmap. reflexivity.
Qed.

(** C10.  For [SE3ExpCompactTransform], the representative returned by
    [inverse_set(y)] refers to the principal logarithm [se3_log(y)] as
    computed: the zero-fill of the candidates does not reach it, whatever
    the mask says of the principal branch. *)
Theorem C10_representative_raw (self : SE3ExpCompactTransform.t) m y vy :
  m !! y = Some vy →
  inverse_set_returns SE3ExpCompactTransform._inverse_set self m y
    (λ rep _ _ m', m' !! rep = Some (se3_log vy)).
Proof.
  intros Hy. pose proof (compact_inverse_set_run self m y vy Hy) as Hrun.
  cbv zeta in Hrun. do 5 eexists.
  split; [exact Hrun|]. split; [reflexivity|].
  split; [apply lookup_insert_eq|].
  simpl. apply representative_kept.
Qed.

End InverseSets.

(** ** The bijective transform and the Jacobian *)
Section Single.
Context `{Primitives}.
Implicit Types (m : gmap loc tensor) (x y : loc) (vx vy : tensor).

(** C6.  The inverse of [SE3ExpBijectiveTransform] returns one tensor, the
    principal logarithm [se3_log(y)] of its input: no candidates, no mask,
    and nothing else in the store is touched. *)
Theorem C6_inverse_is_log (self : SE3ExpBijectiveTransform.t) m y vy :
  m !! y = Some vy →
  ∃ x w,
    SE3ExpBijectiveTransform._inverse y (World self m) = Some (x, w)
    ∧ mem w = <[x := se3_log vy]> m
    ∧ m !! x = None
    ∧ obj w = self.
Proof.
  intros Hy. eexists _, _.
  split; [apply (call_run _ _ _ _ _ Hy)|].
  split; [reflexivity|]. split; [apply fresh_lookup|reflexivity].
Qed.

(** C7.  The three [log_abs_det_jacobian] methods are one function: on
    every pair [(x, y)] and every store they return the same value,
    [se3_log_abs_det_jacobian(x).float()], and raise together. *)
Theorem C7_same_jacobian
    (s1 : SE3ExpTransform.t) (s2 : SE3ExpCompactTransform.t)
    (s3 : SE3ExpBijectiveTransform.t) m x y :
  let formula := (λ vx, (bmap float32 (se3_log_abs_det_jacobian vx), m)) <$> m !! x in
  outcome (SE3ExpTransform.log_abs_det_jacobian x y (World s1 m)) = formula
  ∧ outcome (SE3ExpCompactTransform.log_abs_det_jacobian x y (World s2 m)) = formula
  ∧ outcome (SE3ExpBijectiveTransform.log_abs_det_jacobian x y (World s3 m)) = formula.
Proof.
  intros formula. subst formula.
  unfold SE3ExpTransform.log_abs_det_jacobian,
    SE3ExpCompactTransform.log_abs_det_jacobian,
    SE3ExpBijectiveTransform.log_abs_det_jacobian.
  destruct (m !! x) as [vx|] eqn:Hx.
  - rewrite !(jacobian_run _ _ _ _ Hx). repeat split.
  - rewrite !(jacobian_fail _ _ _ Hx). repeat split.
Qed.

(** C9.  In the three variants [log_abs_det_jacobian(x, y)] does not
    depend on [y]: any two second arguments give the same run, whether or
    not they are the image of [x]. *)
Theorem C9_jacobian_ignores_y x y1 y2 :
  (∀ w, SE3ExpTransform.log_abs_det_jacobian x y1 w
        = SE3ExpTransform.log_abs_det_jacobian x y2 w)
  ∧ (∀ w, SE3ExpCompactTransform.log_abs_det_jacobian x y1 w
          = SE3ExpCompactTransform.log_abs_det_jacobian x y2 w)
  ∧ (∀ w, SE3ExpBijectiveTransform.log_abs_det_jacobian x y1 w
          = SE3ExpBijectiveTransform.log_abs_det_jacobian x y2 w).
Proof. repeat split. Qed.

End Single.

(** ** State kept across calls *)
Section State.
Context `{Primitives}.
Implicit Types (m : gmap loc tensor) (x y : loc).

Lemma full_xset_stateless x : stateless (SE3ExpTransform._xset x).
Proof.
  intros [o m] a w'. destruct (m !! x) as [vx|] eqn:Hx.
  - pose proof (full_xset_run o m x vx Hx) as Hrun. cbv zeta in Hrun.
    rewrite Hrun. intros [= <- <-]. reflexivity.
  - unfold SE3ExpTransform._xset. rewrite bind_run. simpl.
    rewrite bind_run, (call_fail _ _ _ _ Hx). discriminate.
Qed.

Lemma compact_xset_stateless x : stateless (SE3ExpCompactTransform._xset x).
Proof.
  intros [o m] a w'. destruct (m !! x) as [vx|] eqn:Hx.
  - pose proof (compact_xset_run o m x vx Hx) as Hrun. cbv zeta in Hrun.
    rewrite Hrun. intros [= <- <-]. reflexivity.
  - unfold SE3ExpCompactTransform._xset. rewrite bind_run. simpl.
    rewrite bind_run, (call_fail _ _ _ _ Hx). discriminate.
Qed.

(** Sequencing two methods that keep the receiver keeps it. *)
Lemma bind_stateless {T A B} (c : M T A) (f : A → M T B) :
  stateless c → (∀ a, stateless (f a)) → stateless (c ≫= f).
Proof.
  intros Hc Hf w b w'. rewrite bind_run.
  destruct (c w) as [[a w1]|] eqn:Hcw; [|discriminate].
  intros Hfa. rewrite (Hf a _ _ _ Hfa). exact (Hc _ _ _ Hcw).
Qed.

Lemma jacobian_stateless {T} x :
  stateless (T := T) (v ← load x; mret (bmap float32 (se3_log_abs_det_jacobian v))).
Proof.
  intros [o m] a w'. destruct (m !! x) as [vx|] eqn:Hx.
  - rewrite (jacobian_run _ _ _ _ Hx). intros [= <- <-]. reflexivity.
  - rewrite (jacobian_fail _ _ _ Hx). discriminate.
Qed.

(** With the cache switched on, a forward call leaves the pair it
    handled in the receiver. *)
Lemma bijective_call_caches x (w w' : world SE3ExpBijectiveTransform.t) y :
  Transform._cache_size (SE3ExpBijectiveTransform.base (obj w)) = 1%nat →
  Transform.__call__ x w = Some (y, w') →
  SE3ExpBijectiveTransform.base (obj w') = Transform.Make 1 (Some (x, y)).
Proof.
  destruct w as [[[n cached]] m]. simpl. intros ->.
  unfold Transform.__call__. rewrite bind_run. simpl.
  destruct cached as [[x_old y_old]|].
  - destruct (decide (x = x_old)) as [->|Hne].
    + intros [= <- <-]. reflexivity.
    + rewrite bind_run. unfold SE3ExpBijectiveTransform._call.
      destruct (m !! x) as [vx|] eqn:Hx.
      * rewrite (call_run _ _ _ _ _ Hx). intros [= <- <-]. reflexivity.
      * rewrite (call_fail _ _ _ _ Hx). discriminate.
  - rewrite bind_run. unfold SE3ExpBijectiveTransform._call.
    destruct (m !! x) as [vx|] eqn:Hx.
    + rewrite (call_run _ _ _ _ _ Hx). intros [= <- <-]. reflexivity.
    + rewrite (call_fail _ _ _ _ Hx). discriminate.
Qed.

Lemma bijective_inv_caches y (w w' : world SE3ExpBijectiveTransform.t) x :
  Transform._cache_size (SE3ExpBijectiveTransform.base (obj w)) = 1%nat →
  Transform._inv_call y w = Some (x, w') →
  SE3ExpBijectiveTransform.base (obj w') = Transform.Make 1 (Some (x, y)).
Proof.
  destruct w as [[[n cached]] m]. simpl. intros ->.
  unfold Transform._inv_call. rewrite bind_run. simpl.
  destruct cached as [[x_old y_old]|].
  - destruct (decide (y = y_old)) as [->|Hne].
    + intros [= <- <-]. reflexivity.
    + rewrite bind_run. unfold SE3ExpBijectiveTransform._inverse.
      destruct (m !! y) as [vy|] eqn:Hy.
      * rewrite (call_run _ _ _ _ _ Hy). intros [= <- <-]. reflexivity.
      * rewrite (call_fail _ _ _ _ Hy). discriminate.
  - rewrite bind_run. unfold SE3ExpBijectiveTransform._inverse.
    destruct (m !! y) as [vy|] eqn:Hy.
    + rewrite (call_run _ _ _ _ _ Hy). intros [= <- <-]. reflexivity.
    + rewrite (call_fail _ _ _ _ Hy). discriminate.
Qed.

(** On a receiver whose cache is off, forward is [_call]. *)
Lemma cache_off_forward_stateless {T} `{Transform.Sub T} (f : tensor → tensor) :
  (∀ x, Transform._call x = call f x) →
  ∀ x (w w' : world T) (a : loc),
    Transform._cache_size (Transform.base (obj w)) = 0%nat →
    Transform.__call__ x w = Some (a, w') → obj w' = obj w.
Proof.
  intros Hcall x [o m] w' a Hoff. simpl in Hoff.
  unfold Transform.__call__. rewrite bind_run. simpl. rewrite Hoff, Hcall.
  apply (call_stateless f x (World o m)).
Qed.

(** A call on the cached object is answered from the cache. *)
Lemma bijective_hits : cached_partner_returned.
Proof.
  split; intros x y n m w; subst w.
  - unfold Transform.__call__. rewrite bind_run. simpl.
    destruct (decide (x = x)) as [_|Hne]; [reflexivity|destruct (Hne eq_refl)].
  - unfold Transform._inv_call. rewrite bind_run. simpl.
    destruct (decide (y = y)) as [_|Hne]; [reflexivity|destruct (Hne eq_refl)].
Qed.

(** C8, as amended.  The methods [_call], [_xset], [_inverse_set] and
    [log_abs_det_jacobian] of [SE3ExpTransform] and of
    [SE3ExpCompactTransform] assign no attribute of the transform, and on
    an object whose cache size is 0 the forward call
    [Transform.__call__] leaves the object unchanged too.  The methods
    [_call], [_inverse] and [log_abs_det_jacobian] of
    [SE3ExpBijectiveTransform] assign nothing either, but that class is
    constructed with [cache_size = 1]: [Transform.__call__] and
    [Transform._inv_call] keep the cache size, leave the latest pair
    [(x, y)] in [_cached_x_y], and called on the cached tensor object they
    return the cached partner, computing nothing and changing neither
    store nor object. *)
Theorem C8_state_outside_cache :
  keeps_no_state SE3ExpTransform._call SE3ExpTransform._xset
                 SE3ExpTransform._inverse_set SE3ExpTransform.log_abs_det_jacobian
  ∧ keeps_no_state SE3ExpCompactTransform._call SE3ExpCompactTransform._xset
                   SE3ExpCompactTransform._inverse_set
                   SE3ExpCompactTransform.log_abs_det_jacobian
  ∧ (∀ x, stateless (SE3ExpBijectiveTransform._call x))
  ∧ (∀ y, stateless (SE3ExpBijectiveTransform._inverse y))
  ∧ (∀ x y, stateless (SE3ExpBijectiveTransform.log_abs_det_jacobian x y))
  ∧ Transform._cache_size
      (SE3ExpBijectiveTransform.base SE3ExpBijectiveTransform.__init__) = 1%nat
  ∧ latest_pair_cached
  ∧ cached_partner_returned.
Proof.
  split; [|split; [|split; [|split; [|split; [|split; [|split]]]]]].
  - split; [|split; [|split; [|split]]].
    + intros x. apply call_stateless.
    + intros x. apply full_xset_stateless.
    + intros y. apply bind_stateless; [apply call_stateless|].
      intros x. apply full_xset_stateless.
    + intros x y. apply jacobian_stateless.
    + apply (cache_off_forward_stateless se3_exp). reflexivity.
  - split; [|split; [|split; [|split]]].
    + intros x. apply call_stateless.
    + intros x. apply compact_xset_stateless.
    + intros y. apply bind_stateless; [apply call_stateless|].
      intros x. apply compact_xset_stateless.
    + intros x y. apply jacobian_stateless.
    + apply (cache_off_forward_stateless se3_exp). reflexivity.
  - intros x. apply call_stateless.
  - intros y. apply call_stateless.
  - intros x y. apply jacobian_stateless.
  - reflexivity.
  - split.
    + intros x y w w'. apply bijective_call_caches.
    + intros y x w w'. apply bijective_inv_caches.
  - exact bijective_hits.
Qed.

End State.

(** ** The test element *)
Section AtTestElement.
Import Scenario.
Local Existing Instance tools.


Lemma y0_stored : mem0 !! 1%nat = Some y0.
Proof. vm_compute. reflexivity. Qed.


(** The modelled branch generator keeps the contract on the window. *)
Lemma xset_window : se3_xset_window.
Proof.
  intros x k Hk. simpl. unfold xset. simpl.
  rewrite length_fmap, length_seq. reflexivity.
Qed.

(** The bounded variant at the test element, under the default radius
    [2 pi]: the branches [k = -1, 0, 1] have rotational norms [2 pi - 1],
    [1] and [2 pi + 1]; the last one is masked out and zero-filled. *)
Example compact_inverse_set_at_y0 :
  ∃ w,
    SE3ExpCompactTransform._inverse_set 1%nat
      (World (SE3ExpCompactTransform.__init__ two_pi) mem0)
    = Some (2%nat, 3%nat, Batch [3%nat] [true; true; false], w)
    ∧ mem w !! 2%nat = Some x0
    ∧ mem w !! 3%nat
      = Some (Batch [3%nat] [[-0x1.521fb54442d18p+2; -0; -0; 0; 0; 0];
                             [1; 0; 0; 0; 0; 0];
                             [0; 0; 0; 0; 0; 0]]).
Proof.
  pose proof (compact_inverse_set_run
                (SE3ExpCompactTransform.__init__ two_pi) mem0 1%nat y0 y0_stored)
    as Hrun.
  cbv zeta in Hrun. eexists. split; [|split].
  - rewrite Hrun. vm_compute. reflexivity.
  - vm_compute. reflexivity.
  - vm_compute. reflexivity.
Qed.

(** C2 as stated fails at the test element under the default radius
    [2 pi]: the branch [k = 1] has rotational norm [1 + 2 pi], so its mask
    entry is false and its slot is zero-filled; the returned slot has
    norm [0], which is below the radius. *)
Lemma C2_mask_differs_on_returned :
  ¬ mask_matches_returned (SE3ExpCompactTransform.__init__ two_pi) 1%nat mem0.
Proof.
  intros Hclaim.
  pose proof (compact_inverse_set_run
                (SE3ExpCompactTransform.__init__ two_pi) mem0 1%nat y0 y0_stored)
    as Hrun.
  cbv zeta in Hrun.
  specialize (Hclaim _ _ _ _ _ Hrun (lookup_insert_eq _ _ _)
                     2%nat false [0; 0; 0; 0; 0; 0]).
  assert (Hfalse : false = true); [|discriminate Hfalse].
  apply Hclaim; vm_compute; reflexivity.
Qed.

Lemma C2_mask_of_generated_witness :
  inverse_set_returns SE3ExpCompactTransform._inverse_set
    (SE3ExpCompactTransform.__init__ two_pi) mem0 1%nat
    (λ _ vc mask _, mask_of_generated two_pi (xset x0 1) vc mask).
Proof.
  exact (C2_mask_of_generated (SE3ExpCompactTransform.__init__ two_pi)
                              mem0 1%nat y0 y0_stored).
Defined.

Lemma C3_zero_fill_witness :
  inverse_set_returns SE3ExpCompactTransform._inverse_set
    (SE3ExpCompactTransform.__init__ two_pi) mem0 1%nat
    (λ _ vc mask _, zero_filled vc mask).
Proof.
  exact (C3_zero_fill (SE3ExpCompactTransform.__init__ two_pi)
                      mem0 1%nat y0 y0_stored).
Defined.

Lemma C4_mask_all_true_witness :
  inverse_set_returns SE3ExpTransform._inverse_set
    (SE3ExpTransform.__init__ 5) mem0 1%nat
    (λ _ vc mask _, all_valid 11 [] vc mask).
Proof.
  assert (Hk : (0 ≤ SE3ExpTransform.k_max (SE3ExpTransform.__init__ 5))%Z)
    by (simpl; lia).
  exact (C4_mask_all_true (SE3ExpTransform.__init__ 5) mem0 1%nat y0
                          y0_stored xset_window Hk).
Defined.

Lemma C5_window_of_three_witness :
  inverse_set_returns SE3ExpCompactTransform._inverse_set
    (SE3ExpCompactTransform.__init__ two_pi) mem0 1%nat
    (λ _ vc mask _, window_of_three [] (xset x0 1) vc mask).
Proof.
  exact (C5_window_of_three (SE3ExpCompactTransform.__init__ two_pi)
                            mem0 1%nat y0 y0_stored xset_window).
Defined.

Lemma C6_inverse_is_log_witness :
  ∃ x w,
    SE3ExpBijectiveTransform._inverse 1%nat
      (World SE3ExpBijectiveTransform.__init__ mem0) = Some (x, w)
    ∧ mem w = <[x := x0]> mem0
    ∧ mem0 !! x = None
    ∧ obj w = SE3ExpBijectiveTransform.__init__.
Proof.
  exact (C6_inverse_is_log SE3ExpBijectiveTransform.__init__ mem0 1%nat y0 y0_stored).
Defined.

(** C8 as stated fails for [SE3ExpBijectiveTransform]: a forward call on
    a new transform leaves [(x, y)] in [_cached_x_y]. *)
Lemma C8_bijective_forward_caches :
  ¬ stateless (Transform.__call__ (T := SE3ExpBijectiveTransform.t) 0%nat).
Proof.
  intros Hclaim.
  assert (Hrun : Transform.__call__ 0%nat (World SE3ExpBijectiveTransform.__init__ mem0)
                 = Some (2%nat,
                         World (SE3ExpBijectiveTransform.Make
                                  (Transform.Make 1 (Some (0%nat, 2%nat))))
                               (<[2%nat := y0]> mem0)))
    by (vm_compute; reflexivity).
  apply Hclaim in Hrun. discriminate Hrun.
Qed.

(** C8 at the test element: [inverse_set] leaves the bounded variant as
    it was, a forward call of the bijective variant leaves the pair it
    handled in the cache, and the same call again is answered from the
    cache. *)
Lemma C8_state_outside_cache_witness :
  (∃ r w',
     SE3ExpCompactTransform._inverse_set 1%nat
       (World (SE3ExpCompactTransform.__init__ two_pi) mem0) = Some (r, w')
     ∧ obj w' = SE3ExpCompactTransform.__init__ two_pi)
  ∧ (∃ y w',
       Transform.__call__ 0%nat (World SE3ExpBijectiveTransform.__init__ mem0)
       = Some (y, w')
       ∧ SE3ExpBijectiveTransform.base (obj w') = Transform.Make 1 (Some (0%nat, y))
       ∧ Transform.__call__ 0%nat w' = Some (y, w')).
Proof.
  destruct C8_state_outside_cache
    as (_ & Hcompact & _ & _ & _ & _ & (Hforward & _) & (Hhit & _)).
  destruct Hcompact as (_ & _ & Hinverse_set & _).
  split.
  - pose proof (compact_inverse_set_run
                  (SE3ExpCompactTransform.__init__ two_pi) mem0 1%nat y0 y0_stored)
      as Hrun.
    cbv zeta in Hrun. eexists _, _. split; [exact Hrun|].
    exact (Hinverse_set _ _ _ _ Hrun).
  - assert (Hrun : Transform.__call__ 0%nat (World SE3ExpBijectiveTransform.__init__ mem0)
                   = Some (2%nat,
                           World (SE3ExpBijectiveTransform.Make
                                    (Transform.Make 1 (Some (0%nat, 2%nat))))
                                 (<[2%nat := y0]> mem0)))
      by (vm_compute; reflexivity).
    eexists _, _. split; [exact Hrun|]. split.
    + exact (Hforward 0%nat 2%nat (World SE3ExpBijectiveTransform.__init__ mem0) _
                      eq_refl Hrun).
    + exact (Hhit 0%nat 2%nat 0%nat (<[2%nat := y0]> mem0)).
Defined.

(** C10 at the test element under a support radius of [1/2]: the
    principal branch itself is masked out. *)
Lemma C10_representative_raw_witness :
  inverse_set_returns SE3ExpCompactTransform._inverse_set
    (SE3ExpCompactTransform.__init__ 0.5) mem0 1%nat
    (λ rep _ _ m', m' !! rep = Some x0).
Proof.
  exact (C10_representative_raw (SE3ExpCompactTransform.__init__ 0.5)
                                mem0 1%nat y0 y0_stored).
Defined.

End AtTestElement.

(** * Further properties *)

(** ** Comparisons with NaN, and the norm of a zero-filled slot *)
Section Floats.

Lemma SFeqb_refl_false (a : spec_float) : SFeqb a a = false → a = S754_nan.
Proof.
  destruct a as [s| s| |s mant e]; unfold SFeqb; simpl; try discriminate.
  - destruct s; discriminate.
  - reflexivity.
  - destruct s; rewrite Z.compare_refl, Pos.compare_cont_refl; discriminate.
Qed.

Lemma is_nan_Prim2SF (n : float) : is_nan n = true → Prim2SF n = S754_nan.
Proof.
  unfold is_nan. rewrite FloatAxioms.eqb_spec. intros Hn.
  apply SFeqb_refl_false. destruct (SFeqb (Prim2SF n) (Prim2SF n)); [discriminate|reflexivity].
Qed.

(** No number is below a NaN, and a NaN is below no number. *)
Lemma ltb_nan (n r : float) :
  is_nan n = true ∨ is_nan r = true → (n <? r) = false.
Proof.
  rewrite FloatAxioms.ltb_spec. intros [Hn|Hr].
  - rewrite (is_nan_Prim2SF n Hn). reflexivity.
  - rewrite (is_nan_Prim2SF r Hr). destruct (Prim2SF n); reflexivity.
Qed.

(** A zero-filled slot has rotational norm zero, whatever its length. *)
Lemma rotational_norm_zeros (u : list float) :
  rotational_norm ((λ _, 0%float) <$> u) = 0%float.
Proof. destruct u as [|a [|b [|c u]]]; reflexivity. Qed.

End Floats.

(** ** More on the inverse sets *)
Section MoreInverseSets.
Context `{Primitives}.
Implicit Types (m : gmap loc tensor) (x y : loc) (vx vy : tensor).

(** Entry [i] of the mask of the bounded variant. *)
Lemma compact_mask_lookup (radius : float) (xs : tensor) (i : nat) :
  items (bmap (λ n, n <? radius) (bmap vnorm (bmap (take 3) xs))) !! i
  = (λ v, rotational_norm v <? radius) <$> items xs !! i.
Proof.
  unfold bmap. simpl. rewrite !list_lookup_fmap.
  destruct (items xs !! i); reflexivity.
Qed.

(** Equality of sets of references built from singletons and unions. *)
Ltac sets_by_elements :=
  apply set_eq; intros ?;
  rewrite ?elem_of_union, ?elem_of_singleton; tauto.

(** The stores after [_inverse_set]: two tensors are new, the rest is as
    it was. *)
Lemma two_inserts_new m (v : tensor) :
  let lx := fresh (dom m) in
  let m1 := <[lx := v]> m in
  let l := fresh (dom m1) in
  ∀ m', dom m' = {[l]} ∪ dom m1 →
        (∀ (k : loc), k ≠ l → m' !! k = m1 !! k) →
        two_new_tensors m lx l m'.
Proof.
  intros lx m1 l m' Hdom Hsame.
  assert (Hlx : m1 !! lx = Some v) by apply lookup_insert_eq.
  pose proof (fresh_ne m1 lx v Hlx) as Hne.
  assert (Hl1 : m1 !! l = None) by apply fresh_lookup.
  repeat split.
  - exact Hne.
  - apply fresh_lookup.
  - subst m1. rewrite lookup_insert_ne in Hl1; [exact Hl1|].
    intros E. apply Hne. exact E.
  - rewrite Hdom. subst m1. rewrite dom_insert_L. sets_by_elements.
  - intros k vk Hk. rewrite Hsame.
    + subst m1. rewrite lookup_insert_ne; [exact Hk|].
      intros <-. pose proof (fresh_lookup m) as Hf. fold lx in Hf. congruence.
    + intros ->. subst m1. rewrite lookup_insert_ne in Hl1; [congruence|].
      intros E. apply Hne. exact E.
Qed.

(** X1.  The zero-fill of [SE3ExpCompactTransform] leaves the valid
    branches alone: a returned candidate whose mask entry is true is the
    candidate [se3_xset] generated, rotation and translation alike. *)
Theorem compact_valid_unchanged (self : SE3ExpCompactTransform.t) m y vy :
  m !! y = Some vy →
  inverse_set_returns SE3ExpCompactTransform._inverse_set self m y
    (λ _ vc mask _, valid_unchanged (se3_xset (se3_log vy) 1) vc mask).
Proof.
  intros Hy. pose proof (compact_inverse_set_run self m y vy Hy) as Hrun.
  cbv zeta in Hrun. do 5 eexists.
  split; [exact Hrun|]. split; [reflexivity|].
  split; [apply lookup_insert_eq|].
  intros i Hm. rewrite compact_mask_lookup in Hm.
  destruct (items (se3_xset (se3_log vy) 1) !! i) as [u|] eqn:Hu; [|discriminate].
  injection Hm as Hm.
  unfold masked_fill, bmap. simpl.
  rewrite lookup_zip_with, Hu. simpl.
  rewrite !list_lookup_fmap, Hu. simpl.
  unfold rotational_norm in Hm. rewrite Hm. reflexivity.
Qed.

(** X2.  [inverse_set] of [SE3ExpCompactTransform] returns the
    representative and the candidates as new tensor objects, distinct
    from each other and from every tensor that existed before, and its
    in-place zero-fill changes none of the existing tensors: the argument
    [y] and everything else the caller had hold the same values
    afterwards. *)
Theorem compact_inverse_set_frame (self : SE3ExpCompactTransform.t) m y vy :
  m !! y = Some vy →
  ∃ rep cands mask w,
    SE3ExpCompactTransform._inverse_set y (World self m) = Some (rep, cands, mask, w)
    ∧ mem w !! y = Some vy
    ∧ caller_tensors_kept m rep cands (mem w).
Proof.
  intros Hy. pose proof (compact_inverse_set_run self m y vy Hy) as Hrun.
  cbv zeta in Hrun. do 4 eexists. split; [exact Hrun|]. simpl.
  assert (Hnew : two_new_tensors m (fresh (dom m))
                   (fresh (dom (<[fresh (dom m) := se3_log vy]> m)))
                   (<[fresh (dom (<[fresh (dom m) := se3_log vy]> m))
                      := masked_fill (se3_xset (se3_log vy) 1)
                           (bmap negb
                              (bmap (λ n, n <? SE3ExpCompactTransform.support_radius self)
                                 (bmap vnorm (bmap (take 3) (se3_xset (se3_log vy) 1)))))
                           0]>
                      (<[fresh (dom (<[fresh (dom m) := se3_log vy]> m))
                         := se3_xset (se3_log vy) 1]>
                         (<[fresh (dom m) := se3_log vy]> m)))).
  { apply two_inserts_new.
    - rewrite !dom_insert_L. sets_by_elements.
    - intros k Hk.
      rewrite !lookup_insert_ne by (intros E; apply Hk; symmetry; exact E).
      reflexivity. }
  destruct Hnew as (Hne & Hrep & Hcands & _ & Hkept).
  split; [exact (Hkept y vy Hy)|].
  repeat split; assumption.
Qed.

(** X3.  [inverse_set] of [SE3ExpTransform] returns the principal
    logarithm and the candidates exactly as [se3_log] and [se3_xset]
    computed them, in two new tensors; the store is otherwise as
    before. *)
Theorem full_inverse_set_exact (self : SE3ExpTransform.t) m y vy :
  m !! y = Some vy →
  ∃ rep cands mask w,
    SE3ExpTransform._inverse_set y (World self m) = Some (rep, cands, mask, w)
    ∧ mem w !! rep = Some (se3_log vy)
    ∧ mem w !! cands = Some (se3_xset (se3_log vy) (SE3ExpTransform.k_max self))
    ∧ two_new_tensors m rep cands (mem w).
Proof.
  intros Hy. pose proof (full_inverse_set_run self m y vy Hy) as Hrun.
  cbv zeta in Hrun. do 4 eexists. split; [exact Hrun|]. simpl.
  assert (Hnew : two_new_tensors m (fresh (dom m))
                   (fresh (dom (<[fresh (dom m) := se3_log vy]> m)))
                   (<[fresh (dom (<[fresh (dom m) := se3_log vy]> m))
                      := se3_xset (se3_log vy) (SE3ExpTransform.k_max self)]>
                      (<[fresh (dom m) := se3_log vy]> m))).
  { apply two_inserts_new.
    - rewrite !dom_insert_L. sets_by_elements.
    - intros k Hk. rewrite lookup_insert_ne by (intros E; apply Hk; symmetry; exact E).
      reflexivity. }
  split; [|split; [apply lookup_insert_eq|exact Hnew]].
  destruct Hnew as (Hne & _).
  rewrite lookup_insert_ne by (intros E; apply Hne; symmetry; exact E).
  apply lookup_insert_eq.
Qed.

(** X4.  On the same input the bounded variant is the full-window variant
    with [k_max = 1] followed by masking: same representative, same
    candidate tensor, the mask is the radius test on the full-window
    candidates and the candidates are those, zero-filled under it. *)
Theorem compact_is_masked_full
    (sf : SE3ExpTransform.t) (sc : SE3ExpCompactTransform.t) m y vy :
  m !! y = Some vy →
  SE3ExpTransform.k_max sf = 1%Z →
  ∃ rep cands maskf wf maskc wc vf,
    SE3ExpTransform._inverse_set y (World sf m) = Some (rep, cands, maskf, wf)
    ∧ SE3ExpCompactTransform._inverse_set y (World sc m) = Some (rep, cands, maskc, wc)
    ∧ mem wf !! cands = Some vf
    ∧ maskc = bmap (λ v, rotational_norm v <? SE3ExpCompactTransform.support_radius sc) vf
    ∧ mem wc = <[cands := masked_fill vf (bmap negb maskc) 0]> (mem wf).
Proof.
  intros Hy Hk.
  pose proof (full_inverse_set_run sf m y vy Hy) as Hf.
  pose proof (compact_inverse_set_run sc m y vy Hy) as Hc.
  cbv zeta in Hf, Hc. rewrite Hk in Hf.
  do 7 eexists. split; [exact Hf|]. split; [exact Hc|].
  split; [apply lookup_insert_eq|]. split; [|reflexivity].
  unfold bmap. simpl. f_equal. rewrite <- !list_fmap_compose. reflexivity.
Qed.

(** X5.  A branch of [SE3ExpCompactTransform] whose rotational norm is
    NaN is masked out and returned as zeros, and so is every branch when
    the support radius is NaN: the comparison [norms < support_radius] is
    false on NaN. *)
Theorem compact_nan_masked (self : SE3ExpCompactTransform.t) m y vy
    (i : nat) (u : list float) :
  m !! y = Some vy →
  items (se3_xset (se3_log vy) 1) !! i = Some u →
  is_nan (rotational_norm u) = true
  ∨ is_nan (SE3ExpCompactTransform.support_radius self) = true →
  inverse_set_returns SE3ExpCompactTransform._inverse_set self m y
    (λ _ vc mask _,
       items mask !! i = Some false
       ∧ items vc !! i = Some ((λ _, 0%float) <$> u)).
Proof.
  intros Hy Hu Hnan. pose proof (compact_inverse_set_run self m y vy Hy) as Hrun.
  cbv zeta in Hrun. do 5 eexists.
  split; [exact Hrun|]. split; [reflexivity|].
  split; [apply lookup_insert_eq|].
  assert (Hm : items (bmap (λ n, n <? SE3ExpCompactTransform.support_radius self)
                 (bmap vnorm (bmap (take 3) (se3_xset (se3_log vy) 1)))) !! i
               = Some false).
  { rewrite compact_mask_lookup, Hu. simpl. rewrite (ltb_nan _ _ Hnan). reflexivity. }
  split; [exact Hm|].
  unfold masked_fill. simpl. rewrite lookup_zip_with, Hu. simpl.
  simpl in Hm. rewrite list_lookup_fmap, Hm. reflexivity.
Qed.

(** X6.  Under a positive support radius every candidate that
    [SE3ExpCompactTransform] returns, valid or not, has its rotational
    part inside the support: the valid ones passed the test and the
    others are zero. *)
Theorem compact_candidates_within_support (self : SE3ExpCompactTransform.t) m y vy :
  m !! y = Some vy →
  (0 <? SE3ExpCompactTransform.support_radius self) = true →
  inverse_set_returns SE3ExpCompactTransform._inverse_set self m y
    (λ _ vc _ _, within_support (SE3ExpCompactTransform.support_radius self) vc).
Proof.
  intros Hy Hpos. pose proof (compact_inverse_set_run self m y vy Hy) as Hrun.
  cbv zeta in Hrun. do 5 eexists.
  split; [exact Hrun|]. split; [reflexivity|].
  split; [apply lookup_insert_eq|].
  apply Forall_lookup. intros i v Hv.
  apply masked_fill_lookup in Hv as (u & b & Hu & Hb & ->).
  rewrite compact_mask_lookup, Hu in Hb. injection Hb as Hb.
  destruct b.
  - exact Hb.
  - rewrite rotational_norm_zeros. exact Hpos.
Qed.

End MoreInverseSets.

(** ** More on the cache of the bijective transform *)
Section MoreCache.
Context `{Primitives}.
Implicit Types (m : gmap loc tensor) (x y : loc) (vx vy : tensor).

(** A forward call that misses the cache computes [se3_exp] into a new
    tensor and caches the pair. *)
Lemma bijective_call_miss (n : nat) (cached : option (loc * loc)) m x vx :
  m !! x = Some vx →
  (∀ x_old y_old, cached = Some (x_old, y_old) → x ≠ x_old) →
  Transform.__call__ x
    (World (SE3ExpBijectiveTransform.Make (Transform.Make (S n) cached)) m)
  = Some (fresh (dom m),
          World (SE3ExpBijectiveTransform.Make
                   (Transform.Make (S n) (Some (x, fresh (dom m)))))
                (<[fresh (dom m) := se3_exp vx]> m)).
Proof.
  intros Hx Hmiss. unfold Transform.__call__. rewrite bind_run. simpl.
  destruct cached as [[x_old y_old]|].
  - destruct (decide (x = x_old)) as [E|_].
    + destruct (Hmiss x_old y_old eq_refl E).
    + rewrite bind_run. unfold SE3ExpBijectiveTransform._call.
      rewrite (call_run _ _ _ _ _ Hx). reflexivity.
  - rewrite bind_run. unfold SE3ExpBijectiveTransform._call.
    rewrite (call_run _ _ _ _ _ Hx). reflexivity.
Qed.

(** An inverse call that misses the cache computes [se3_log] into a new
    tensor and caches the pair. *)
Lemma bijective_inv_miss (n : nat) (cached : option (loc * loc)) m y vy :
  m !! y = Some vy →
  (∀ x_old y_old, cached = Some (x_old, y_old) → y ≠ y_old) →
  Transform._inv_call y
    (World (SE3ExpBijectiveTransform.Make (Transform.Make (S n) cached)) m)
  = Some (fresh (dom m),
          World (SE3ExpBijectiveTransform.Make
                   (Transform.Make (S n) (Some (fresh (dom m), y))))
                (<[fresh (dom m) := se3_log vy]> m)).
Proof.
  intros Hy Hmiss. unfold Transform._inv_call. rewrite bind_run. simpl.
  destruct cached as [[x_old y_old]|].
  - destruct (decide (y = y_old)) as [E|_].
    + destruct (Hmiss x_old y_old eq_refl E).
    + rewrite bind_run. unfold SE3ExpBijectiveTransform._inverse.
      rewrite (call_run _ _ _ _ _ Hy). reflexivity.
  - rewrite bind_run. unfold SE3ExpBijectiveTransform._inverse.
    rewrite (call_run _ _ _ _ _ Hy). reflexivity.
Qed.

(** X7.  For [SE3ExpBijectiveTransform] (cache size 1), the inverse of
    the result of the latest forward call is the very tensor object that
    was passed to forward: [se3_log] is not computed and neither the store
    nor the transform changes. *)
Theorem bijective_inverse_of_forward x y (w w1 : world SE3ExpBijectiveTransform.t) :
  Transform._cache_size (SE3ExpBijectiveTransform.base (obj w)) = 1%nat →
  Transform.__call__ x w = Some (y, w1) →
  Transform._inv_call y w1 = Some (x, w1).
Proof.
  intros Hsize Hrun.
  pose proof (bijective_call_caches x w w1 y Hsize Hrun) as Hbase.
  destruct w1 as [[b] m1]. simpl in Hbase. subst b.
  unfold Transform._inv_call. rewrite bind_run. simpl.
  destruct (decide (y = y)) as [_|Hne]; [reflexivity|destruct (Hne eq_refl)].
Qed.

(** X8.  For [SE3ExpBijectiveTransform], a forward call repeated on the
    same tensor object returns the object computed the first time,
    without recomputing [se3_exp] and without touching store or
    transform, whatever the store holds by then (also when the argument
    was updated in place in between). *)
Theorem bijective_forward_repeated x y (w w1 : world SE3ExpBijectiveTransform.t)
    (m' : gmap loc tensor) :
  Transform._cache_size (SE3ExpBijectiveTransform.base (obj w)) = 1%nat →
  Transform.__call__ x w = Some (y, w1) →
  Transform.__call__ x (World (obj w1) m') = Some (y, World (obj w1) m').
Proof.
  intros Hsize Hrun.
  pose proof (bijective_call_caches x w w1 y Hsize Hrun) as Hbase.
  destruct w1 as [[b] m1]. simpl in Hbase. subst b.
  unfold Transform.__call__. rewrite bind_run. simpl.
  destruct (decide (x = x)) as [_|Hne]; [reflexivity|destruct (Hne eq_refl)].
Qed.

(** X9.  The cache of [SE3ExpBijectiveTransform] holds the latest pair
    only, and goes by object identity: after forward calls on two
    distinct tensor objects [x1] and then [x2], the inverse of the first
    result does not give back [x1] but computes [se3_log] of it into a new
    tensor, which becomes the cached partner. *)
Theorem bijective_cache_keeps_latest m (x1 x2 : loc) (v1 v2 : tensor) :
  m !! x1 = Some v1 →
  m !! x2 = Some v2 →
  x1 ≠ x2 →
  ∃ y1 w1 y2 w2 x' w3,
    Transform.__call__ x1 (World SE3ExpBijectiveTransform.__init__ m) = Some (y1, w1)
    ∧ Transform.__call__ x2 w1 = Some (y2, w2)
    ∧ Transform._inv_call y1 w2 = Some (x', w3)
    ∧ x' ≠ x1
    ∧ mem w2 !! x' = None
    ∧ mem w3 = <[x' := se3_log (se3_exp v1)]> (mem w2)
    ∧ SE3ExpBijectiveTransform.base (obj w3) = Transform.Make 1 (Some (x', y1)).
Proof.
  intros H1 H2 Hne.
  set (y1 := fresh (dom m)). set (m1 := <[y1 := se3_exp v1]> m).
  set (y2 := fresh (dom m1)). set (m2 := <[y2 := se3_exp v2]> m1).
  assert (Hy1 : m1 !! y1 = Some (se3_exp v1)) by apply lookup_insert_eq.
  assert (H2' : m1 !! x2 = Some v2).
  { unfold m1. rewrite lookup_insert_ne; [exact H2|].
    intros E. symmetry in E. revert E. apply (fresh_ne m x2 v2 H2). }
  assert (H1' : m2 !! x1 = Some v1).
  { unfold m2, m1. rewrite !lookup_insert_ne; [exact H1| |].
    - intros E. symmetry in E. revert E. apply (fresh_ne m x1 v1 H1).
    - intros E. symmetry in E. revert E. apply (fresh_ne m1 x1 v1).
      unfold m1. rewrite lookup_insert_ne; [exact H1|].
      intros E. symmetry in E. revert E. apply (fresh_ne m x1 v1 H1). }
  assert (Hy12 : y1 ≠ y2) by apply (fresh_ne m1 y1 _ Hy1).
  assert (Hy1' : m2 !! y1 = Some (se3_exp v1)).
  { unfold m2. rewrite lookup_insert_ne; [exact Hy1|].
    intros E. apply Hy12. symmetry. exact E. }
  exists y1, (World (SE3ExpBijectiveTransform.Make (Transform.Make 1 (Some (x1, y1)))) m1),
         y2, (World (SE3ExpBijectiveTransform.Make (Transform.Make 1 (Some (x2, y2)))) m2),
         (fresh (dom m2)),
         (World (SE3ExpBijectiveTransform.Make
                   (Transform.Make 1 (Some (fresh (dom m2), y1))))
                (<[fresh (dom m2) := se3_log (se3_exp v1)]> m2)).
  split; [apply (bijective_call_miss 0 None m x1 v1 H1); discriminate|].
  split.
  { apply (bijective_call_miss 0 (Some (x1, y1)) m1 x2 v2 H2').
    intros x_old y_old [= <- <-] E. apply Hne. symmetry. exact E. }
  split.
  { apply (bijective_inv_miss 0 (Some (x2, y2)) m2 y1 _ Hy1').
    intros x_old y_old [= <- <-]. exact Hy12. }
  split; [|split; [apply fresh_lookup|split; reflexivity]].
  intros E. symmetry in E. revert E. apply (fresh_ne m2 x1 v1 H1').
Qed.

End MoreCache.

(** ** The further properties at the test element *)
Section MoreAtTestElement.
Import Scenario.
Local Existing Instance tools.

Lemma X1_compact_valid_unchanged_witness :
  inverse_set_returns SE3ExpCompactTransform._inverse_set
    (SE3ExpCompactTransform.__init__ two_pi) mem0 1%nat
    (λ _ vc mask _, valid_unchanged (xset x0 1) vc mask).
Proof.
  exact (compact_valid_unchanged (SE3ExpCompactTransform.__init__ two_pi)
                                 mem0 1%nat y0 y0_stored).
Defined.

Lemma X2_compact_inverse_set_frame_witness :
  ∃ rep cands mask w,
    SE3ExpCompactTransform._inverse_set 1%nat
      (World (SE3ExpCompactTransform.__init__ two_pi) mem0)
    = Some (rep, cands, mask, w)
    ∧ mem w !! 1%nat = Some y0
    ∧ caller_tensors_kept mem0 rep cands (mem w).
Proof.
  exact (compact_inverse_set_frame (SE3ExpCompactTransform.__init__ two_pi)
                                   mem0 1%nat y0 y0_stored).
Defined.

Lemma X3_full_inverse_set_exact_witness :
  ∃ rep cands mask w,
    SE3ExpTransform._inverse_set 1%nat (World (SE3ExpTransform.__init__ 5) mem0)
    = Some (rep, cands, mask, w)
    ∧ mem w !! rep = Some x0
    ∧ mem w !! cands = Some (xset x0 5)
    ∧ two_new_tensors mem0 rep cands (mem w).
Proof.
  exact (full_inverse_set_exact (SE3ExpTransform.__init__ 5) mem0 1%nat y0 y0_stored).
Defined.

Lemma X4_compact_is_masked_full_witness :
  ∃ rep cands maskf wf maskc wc vf,
    SE3ExpTransform._inverse_set 1%nat (World (SE3ExpTransform.__init__ 1) mem0)
    = Some (rep, cands, maskf, wf)
    ∧ SE3ExpCompactTransform._inverse_set 1%nat
        (World (SE3ExpCompactTransform.__init__ two_pi) mem0)
      = Some (rep, cands, maskc, wc)
    ∧ mem wf !! cands = Some vf
    ∧ maskc = bmap (λ v, rotational_norm v <? two_pi) vf
    ∧ mem wc = <[cands := masked_fill vf (bmap negb maskc) 0]> (mem wf).
Proof.
  exact (compact_is_masked_full (SE3ExpTransform.__init__ 1)
           (SE3ExpCompactTransform.__init__ two_pi) mem0 1%nat y0 y0_stored eq_refl).
Defined.

(** Under a NaN support radius the principal branch is masked out. *)
Lemma X5_compact_nan_masked_witness :
  inverse_set_returns SE3ExpCompactTransform._inverse_set
    (SE3ExpCompactTransform.__init__ nan) mem0 1%nat
    (λ _ vc mask _,
       items mask !! 1%nat = Some false
       ∧ items vc !! 1%nat = Some [0; 0; 0; 0; 0; 0]).
Proof.
  assert (Hu : items (se3_xset (se3_log y0) 1) !! 1%nat = Some [1; 0; 0; 0; 0; 0])
    by (vm_compute; reflexivity).
  assert (Hnan : is_nan (rotational_norm [1; 0; 0; 0; 0; 0]) = true
                 ∨ is_nan (SE3ExpCompactTransform.support_radius
                             (SE3ExpCompactTransform.__init__ nan)) = true)
    by (right; vm_compute; reflexivity).
  exact (compact_nan_masked (SE3ExpCompactTransform.__init__ nan) mem0 1%nat y0
                            1%nat [1; 0; 0; 0; 0; 0] y0_stored Hu Hnan).
Defined.

Lemma X6_compact_candidates_within_support_witness :
  inverse_set_returns SE3ExpCompactTransform._inverse_set
    (SE3ExpCompactTransform.__init__ two_pi) mem0 1%nat
    (λ _ vc _ _, within_support two_pi vc).
Proof.
  assert (Hpos : (0 <? SE3ExpCompactTransform.support_radius
                         (SE3ExpCompactTransform.__init__ two_pi)) = true)
    by (vm_compute; reflexivity).
  exact (compact_candidates_within_support
           (SE3ExpCompactTransform.__init__ two_pi) mem0 1%nat y0 y0_stored Hpos).
Defined.

(** The world after the first forward call of a new bijective transform
    on the twist at reference [0]. *)
Lemma bijective_first_call :
  Transform.__call__ 0%nat (World SE3ExpBijectiveTransform.__init__ mem0)
  = Some (2%nat,
          World (SE3ExpBijectiveTransform.Make (Transform.Make 1 (Some (0%nat, 2%nat))))
                (<[2%nat := y0]> mem0)).
Proof. vm_compute. reflexivity. Qed.

Lemma X7_bijective_inverse_of_forward_witness :
  Transform._inv_call 2%nat
    (World (SE3ExpBijectiveTransform.Make (Transform.Make 1 (Some (0%nat, 2%nat))))
           (<[2%nat := y0]> mem0))
  = Some (0%nat,
          World (SE3ExpBijectiveTransform.Make (Transform.Make 1 (Some (0%nat, 2%nat))))
                (<[2%nat := y0]> mem0)).
Proof.
  exact (bijective_inverse_of_forward 0%nat 2%nat
           (World SE3ExpBijectiveTransform.__init__ mem0) _ eq_refl bijective_first_call).
Defined.

(** The twist at reference [0] is replaced by another one in between: the
    second forward call still returns the first result. *)
Lemma X8_bijective_forward_repeated_witness :
  Transform.__call__ 0%nat
    (World (SE3ExpBijectiveTransform.Make (Transform.Make 1 (Some (0%nat, 2%nat))))
           (<[0%nat := Batch [] [[2; 0; 0; 0; 0; 0]]]> (<[2%nat := y0]> mem0)))
  = Some (2%nat,
          World (SE3ExpBijectiveTransform.Make (Transform.Make 1 (Some (0%nat, 2%nat))))
                (<[0%nat := Batch [] [[2; 0; 0; 0; 0; 0]]]> (<[2%nat := y0]> mem0))).
Proof.
  exact (bijective_forward_repeated 0%nat 2%nat
           (World SE3ExpBijectiveTransform.__init__ mem0) _
           (<[0%nat := Batch [] [[2; 0; 0; 0; 0; 0]]]> (<[2%nat := y0]> mem0))
           eq_refl bijective_first_call).
Defined.

Lemma X9_bijective_cache_keeps_latest_witness :
  ∃ y1 w1 y2 w2 x' w3,
    Transform.__call__ 0%nat (World SE3ExpBijectiveTransform.__init__ two_twists)
    = Some (y1, w1)
    ∧ Transform.__call__ 1%nat w1 = Some (y2, w2)
    ∧ Transform._inv_call y1 w2 = Some (x', w3)
    ∧ x' ≠ 0%nat
    ∧ mem w2 !! x' = None
    ∧ mem w3 = <[x' := x0]> (mem w2)
    ∧ SE3ExpBijectiveTransform.base (obj w3) = Transform.Make 1 (Some (x', y1)).
Proof.
  assert (H0 : two_twists !! 0%nat = Some x0) by (vm_compute; reflexivity).
  assert (H1 : two_twists !! 1%nat = Some x0) by (vm_compute; reflexivity).
  assert (Hne : (0 ≠ 1)%nat) by discriminate.
  exact (bijective_cache_keeps_latest two_twists 0%nat 1%nat x0 x0 H0 H1 Hne).
Defined.

End MoreAtTestElement.

(** ** The round trip with primitives that meet the contract *)
Section WithPrincipalTwists.
Local Existing Instance PrincipalTwist.tools.






End WithPrincipalTwists.
